(** * torch/csrc/jit/script/compiler.h

    A shallow embedding of the sugared-value layer of the script
    compiler: [CallsiteDescriptor], the [SugaredValue] base class with its
    throwing defaults, the two variants the header defines ([SimpleValue],
    [BuiltinFunction]) and the compilation entry points it declares.

    Conventions.
    - [size_t] is an [N]; the word width [w] is a parameter wherever the
      header depends on it ([VARARG_OUTPUTS]).
    - [Value*] is a handle ([N]); a nullable [Value*] is an [option].
    - A member function taking [Method & m] is a state-passing function
      [Method -> Result A * Method]: a C++ [throw] leaves the method as it
      was at the point of the throw, so the state is returned beside the
      result, not inside it.
    - Virtual dispatch is a table of optional overrides: an absent entry
      is the base-class body. *)

From Stdlib Require Import NArith List.
From stdpp Require Import gmap strings list fin_maps.

#[local] Set Warnings "-clear-no-such-hyp".

Open Scope string_scope.
Open Scope list_scope.

(** ** Collaborator data (ir.h, tree_views.h, error_report.h, module.h)

    compiler.h includes these headers and uses their types by name only. *)

(** Modelled from the spec: [SourceRange] (section 3), "an immutable span
    identifying a location in the original script text; used for
    diagnostics only". *)
Record SourceRange := mkRange { range_start : N; range_end : N }.

(** Modelled from the spec: [Value*] (section 3), "an opaque handle into
    the collaborator graph". *)
Definition Value := N.

(** Modelled from the spec: [Attribute], a keyword attribute of a call
    (section 3, "keyword-attributes"), a name and its constant. *)
Record Attribute := mkAttribute { attr_name : string; attr_value : string }.

(** Modelled from the spec: the IR graph of ir.h (glossary), "composed of
    operator nodes and typed value handles".  A node has an operator
    kind, inputs, attributes and output handles; a graph has inputs, nodes
    in the order of emission, outputs and a counter for new handles. *)
Record Node := mkNode {
  node_kind : string;
  node_inputs : list Value;
  node_attributes : list Attribute;
  node_outputs : list Value
}.

Record Graph := mkGraph {
  graph_inputs : list Value;
  graph_nodes : list Node;
  graph_outputs : list Value;
  next_unique : N
}.

(** Modelled from the spec: [Method] of module.h, the "in-progress
    method-under-construction" (section 4.1); the lowering only reaches
    its graph. *)
Record Method := mkMethod { method_graph : Graph }.

(** Modelled from the spec: what a [throw] carries.  [ErrorReport loc msg]
    is the [ErrorReport(loc) << ...] of error_report.h that the header
    throws; the other two are the errors section 7 names for the lowering
    pass. *)
Inductive Error :=
| ErrorReport (loc : SourceRange) (what : string)
| UnresolvedNameError (name : string) (loc : SourceRange)
| ArityMismatchError (expected actual : N) (loc : SourceRange).

Inductive Result (A : Type) :=
| Ok (a : A)
| Throw (e : Error).
Arguments Ok {A} a.
Arguments Throw {A} e.

(** ** compiler.h, lines 15-23 *)

(** [std::numeric_limits<size_t>::max()] for a [w]-bit [size_t]. *)
Definition size_t_max (w : N) : N := (2 ^ w - 1)%N.

(** A [size_t] is a natural number below [2^w]. *)
Definition is_size_t (w n : N) : Prop := (n < 2 ^ w)%N.

Definition VARARG_OUTPUTS (w : N) : N := size_t_max w.

Record CallsiteDescriptor := mkCallsiteDescriptor {
  n_outputs : N;
  allow_varargs : bool
}.

(** ** compiler.h, lines 34-73: [SugaredValue] *)

(** An object of a class derived from [SugaredValue]: its [kind()] and,
    for each virtual member function, the overriding body if the class has
    one. *)
#[local] Unset Elimination Schemes.
Inductive SugaredValue := mkSugaredValue {
  kind : string;
  asValue_override :
    option (SourceRange -> Method -> Result Value * Method);
  attr_override :
    option (SourceRange -> Method -> string -> Result SugaredValue * Method);
  asTuple_override :
    option (SourceRange -> Method -> Result (list SugaredValue) * Method);
  call_override :
    option (SourceRange -> Method -> list Value -> list Attribute ->
            CallsiteDescriptor -> Result (list Value) * Method);
  unrolledFor_override :
    option (SourceRange -> Method -> Result (list SugaredValue) * Method)
}.
#[local] Set Elimination Schemes.

(** The five base-class bodies.  Each one only throws. *)
Definition asValue (this : SugaredValue) (loc : SourceRange) (m : Method)
  : Result Value * Method :=
  match asValue_override this with
  | Some f => f loc m
  | None => (Throw (ErrorReport loc (kind this +:+ " cannot be used as a value")), m)
  end.

Definition attr (this : SugaredValue) (loc : SourceRange) (m : Method)
    (field : string) : Result SugaredValue * Method :=
  match attr_override this with
  | Some f => f loc m field
  | None => (Throw (ErrorReport loc ("attribute lookup is not defined on " +:+ kind this)), m)
  end.

Definition asTuple (this : SugaredValue) (loc : SourceRange) (m : Method)
  : Result (list SugaredValue) * Method :=
  match asTuple_override this with
  | Some f => f loc m
  | None => (Throw (ErrorReport loc (kind this +:+ " cannot be used as tuple")), m)
  end.

Definition call (this : SugaredValue) (loc : SourceRange) (m : Method)
    (inputs : list Value) (attributes : list Attribute)
    (cd : CallsiteDescriptor) : Result (list Value) * Method :=
  match call_override this with
  | Some f => f loc m inputs attributes cd
  | None => (Throw (ErrorReport loc ("cannot call a " +:+ kind this)), m)
  end.

Definition unrolledFor (this : SugaredValue) (loc : SourceRange) (m : Method)
  : Result (list SugaredValue) * Method :=
  match unrolledFor_override this with
  | Some f => f loc m
  | None => (Throw (ErrorReport loc (kind this +:+ " is not iterable")), m)
  end.

(** The five operations, as data, to speak of them uniformly. *)
Inductive Capability :=
| CapAsValue | CapAttr | CapAsTuple | CapCall | CapUnrolledFor.

Definition overrides (this : SugaredValue) (c : Capability) : bool :=
  match c with
  | CapAsValue => bool_decide (is_Some (asValue_override this))
  | CapAttr => bool_decide (is_Some (attr_override this))
  | CapAsTuple => bool_decide (is_Some (asTuple_override this))
  | CapCall => bool_decide (is_Some (call_override this))
  | CapUnrolledFor => bool_decide (is_Some (unrolledFor_override this))
  end.

(** The text each base-class body streams into its [ErrorReport]. *)
Definition default_message (c : Capability) (k : string) : string :=
  match c with
  | CapAsValue => k +:+ " cannot be used as a value"
  | CapAttr => "attribute lookup is not defined on " +:+ k
  | CapAsTuple => k +:+ " cannot be used as tuple"
  | CapCall => "cannot call a " +:+ k
  | CapUnrolledFor => k +:+ " is not iterable"
  end.

(** The exception an operation ends with, if any, forgetting what it
    returns otherwise. *)
Definition thrown {A} (r : Result A * Method) : option Error * Method :=
  match r with
  | (Ok _, m) => (None, m)
  | (Throw e, m) => (Some e, m)
  end.

(** The arguments of a call site of any of the five operations. *)
Record Invocation := mkInvocation {
  inv_loc : SourceRange;
  inv_field : string;
  inv_inputs : list Value;
  inv_attributes : list Attribute;
  inv_cd : CallsiteDescriptor
}.

Definition invoke (c : Capability) (this : SugaredValue) (i : Invocation)
    (m : Method) : option Error * Method :=
  match c with
  | CapAsValue => thrown (asValue this (inv_loc i) m)
  | CapAttr => thrown (attr this (inv_loc i) m (inv_field i))
  | CapAsTuple => thrown (asTuple this (inv_loc i) m)
  | CapCall =>
      thrown (call this (inv_loc i) m (inv_inputs i) (inv_attributes i) (inv_cd i))
  | CapUnrolledFor => thrown (unrolledFor this (inv_loc i) m)
  end.

(** ** Collaborators and the two variants of the header *)

(** Modelled from the spec: an entry of the "collaborator operator table"
    (section 4.1), the node kind of the operator and the number of outputs
    it declares. *)
Record Operator := mkOperator { op_kind : string; op_n_outputs : N }.

(** Modelled from the spec: the graph-builder boundary of ir.h (section 6),
    "append operator node with given inputs, receive ordered output
    handles".  Handles are drawn from the graph's counter. *)
Definition fresh_values (next count : N) : list Value :=
  map (fun i => (next + N.of_nat i)%N) (seq 0 (N.to_nat count)).

(** Modelled from the spec: the same boundary, one node appended to the
    graph of the method. *)
Definition emitNode (m : Method) (k : string) (inputs : list Value)
    (attributes : list Attribute) (count : N) : list Value * Method :=
  let g := method_graph m in
  let outs := fresh_values (next_unique g) count in
  (outs,
   mkMethod (mkGraph (graph_inputs g)
                     (graph_nodes g ++ [mkNode k inputs attributes outs])
                     (graph_outputs g)
                     (next_unique g + count)%N)).

Section Variants.

(** The body of [SimpleValue::attr], which line 86 declares and the
    header does not define: whatever it does with the wrapped value, the
    range, the method and the field. *)
Variable SimpleValue_attr :
  Value -> SourceRange -> Method -> string -> Result SugaredValue * Method.

(** The operator table that resolves a built-in by name and inputs. *)
Variable operator_table : string -> list Value -> option Operator.

(** compiler.h, lines 77-90. *)
Definition SimpleValue (value : Value) : SugaredValue :=
  {| kind := "value";
     asValue_override := Some (fun range m => (Ok value, m));
     attr_override := Some (SimpleValue_attr value);
     asTuple_override := None;
     call_override := None;
     unrolledFor_override := None |}.

(** Modelled from the spec: the body of [BuiltinFunction::call], which
    compiler.h (lines 101-106) only declares.  Section 4.1: it "resolves
    name + inputs via collaborator operator table, validates against
    [CallsiteDescriptor], emits a graph node, returns its outputs";
    section 4.3: a count that differs from the descriptor's, when
    [allow_varargs] is false, is an [ArityMismatchError(expected, actual,
    location)].  The bound [value], when there is one, is the first
    input.  The spec names no error for a name the table does not know;
    an [ErrorReport] at the call site stands for it. *)
Definition BuiltinFunction_call (name : string) (value : option Value)
    (loc : SourceRange) (m : Method) (inputs_ : list Value)
    (attributes : list Attribute) (cd : CallsiteDescriptor)
  : Result (list Value) * Method :=
  let inputs := option_list value ++ inputs_ in
  match operator_table name inputs with
  | None => (Throw (ErrorReport loc ("unknown builtin op " +:+ name)), m)
  | Some op =>
      if negb (allow_varargs cd) && negb (n_outputs cd =? op_n_outputs op)%N
      then (Throw (ArityMismatchError (n_outputs cd) (op_n_outputs op) loc), m)
      else
        let '(outs, m') :=
          emitNode m (op_kind op) inputs attributes (op_n_outputs op) in
        (Ok outs, m')
  end.

(** compiler.h, lines 92-107. *)
Definition BuiltinFunction (name : string) (value : option Value)
  : SugaredValue :=
  {| kind := "builtin";
     asValue_override := None;
     attr_override := None;
     asTuple_override := None;
     call_override := Some (BuiltinFunction_call name value);
     unrolledFor_override := None |}.

End Variants.

(** ** The lowering pass behind the entry points (lines 109-120)

    compiler.h declares [defineMethodsInModule] and [compileFunction];
    their bodies, and the AST of tree_views.h they walk, are in other
    files.  What follows is modelled from the specification. *)

(** compiler.h, line 109: a null [shared_ptr] is [None]. *)
Definition Resolver := string -> option SugaredValue.

(** Modelled from the spec: the expressions of tree_views.h that section 1
    lists: a name, an attribute selection, a call. *)
#[local] Unset Elimination Schemes.
Inductive Expr :=
| Var (name : string) (range : SourceRange)
| Select (value : Expr) (field : string) (range : SourceRange)
| Apply (callee : Expr) (inputs : list Expr) (attributes : list Attribute)
        (range : SourceRange).

(** Modelled from the spec: the statements of tree_views.h, sections 1 and
    4.3: an assignment to one or several targets
    ([t1, ..., tn = rhs]), an assignment with a starred last target
    ([t1, ..., tn, *rest = rhs]), a loop over a sugared value
    ([for target in iter: body]) and a return. *)
Inductive Stmt :=
| Assign (targets : list string) (rhs : Expr) (range : SourceRange)
| StarAssign (targets : list string) (rest : string) (rhs : Expr)
             (range : SourceRange)
| For (target : string) (iter : Expr) (body : list Stmt)
      (range : SourceRange)
| Return (values : list Expr) (range : SourceRange).
#[local] Set Elimination Schemes.

(** Modelled from the spec: a [Def] of tree_views.h (section 4.4), a
    name, formal parameters and a body. *)
Record Def := mkDef {
  def_name : string;
  def_params : list string;
  def_body : list Stmt
}.

Definition expr_range (e : Expr) : SourceRange :=
  match e with
  | Var _ r | Select _ _ r | Apply _ _ _ r => r
  end.

(** Where the value of a name came from: the lexical scope, or the
    resolver, with the resolver's answer. *)
Inductive Origin :=
| InScope (v : SugaredValue)
| Resolved (answer : option SugaredValue).

(** What the lowering of a definition went through, as a ghost: each
    reference to a name, with the origin of its value, and each error
    that an operation of a value or an arity check threw. *)
Inductive Event :=
| Looked (name : string) (range : SourceRange) (origin : Origin)
| Failed (e : Error).

(** Modelled from the spec: the state of the lowering of one definition,
    the method under construction and, as a ghost, the events so far,
    oldest first. *)
Record LowerState := mkLowerState {
  ls_method : Method;
  ls_events : list Event
}.

Definition note (ev : Event) (st : LowerState) : LowerState :=
  mkLowerState (ls_method st) (ls_events st ++ [ev]).

(** Modelled from the spec: a step of the lowering pass.  Section 7:
    errors "propagate immediately up through the lowering of the enclosing
    definition; there is no local recovery or retry". *)
Definition Lower (A : Type) : Type := LowerState -> Result A * LowerState.

Definition ret {A} (a : A) : Lower A := fun st => (Ok a, st).

(** An error of the lowering pass itself. *)
Definition fail {A} (e : Error) : Lower A :=
  fun st => (Throw e, note (Failed e) st).

(** The first error ends the computation: nothing after it runs. *)
Definition bind {A B} (c : Lower A) (k : A -> Lower B) : Lower B :=
  fun st =>
    match c st with
    | (Ok a, st') => k a st'
    | (Throw e, st') => (Throw e, st')
    end.

Notation "'let!' x ':=' c 'in' k" := (bind c (fun x => k))
  (at level 10, x name, c at level 100, k at level 200).

(** An operation of a [SugaredValue] runs on the method of the state. *)
Definition onMethod {A} (op : Method -> Result A * Method) : Lower A :=
  fun st =>
    let '(r, m') := op (ls_method st) in
    let st' := mkLowerState m' (ls_events st) in
    match r with
    | Ok a => (Ok a, st')
    | Throw e => (Throw e, note (Failed e) st')
    end.

Definition mapM {A B} (f : A -> Lower B) : list A -> Lower (list B) :=
  fix go (l : list A) : Lower (list B) :=
    match l with
    | [] => ret []
    | a :: l' => let! b := f a in let! bs := go l' in ret (b :: bs)
    end.

(** Modelled from the spec: the graph-builder boundary, a new graph
    input. *)
Definition addInput (m : Method) : Result Value * Method :=
  let g := method_graph m in
  (Ok (next_unique g),
   mkMethod (mkGraph (graph_inputs g ++ [next_unique g]) (graph_nodes g)
                     (graph_outputs g) (next_unique g + 1)%N)).

(** Modelled from the spec: the graph-builder boundary, the values a
    [return] makes outputs of the graph. *)
Definition registerOutputs (vs : list Value) (m : Method)
  : Result unit * Method :=
  let g := method_graph m in
  (Ok tt,
   mkMethod (mkGraph (graph_inputs g) (graph_nodes g)
                     (graph_outputs g ++ vs) (next_unique g))).

(** Modelled from the spec: the graph-builder boundary, the node that
    packs values into one tuple value (lines 15-17: "packing outputs
    into a tuple on the lhs of an assignment"). *)
Definition packTuple (vs : list Value) (m : Method) : Result Value * Method :=
  let '(outs, m') := emitNode m "prim::TupleConstruct" vs [] 1 in
  (Ok (next_unique (method_graph m)), m').

(** Modelled from the spec: the method table of module.h, section 6:
    "register(name, graph, formal_parameters)".  Registering a name anew
    replaces the entry; the spec leaves that to the module. *)
Record MethodEntry := mkMethodEntry {
  entry_graph : Graph;
  entry_params : list string
}.

Abbreviation MethodTable := (gmap string MethodEntry).

(** Modelled from the spec: [register(name, graph, formal_parameters)]
    of section 6. *)
Definition register (m : MethodTable) (name : string) (g : Graph)
    (formals : list string) : MethodTable :=
  <[name := mkMethodEntry g formals]> m.

(** Modelled from the spec: a method with an empty graph. *)
Definition new_method : Method := mkMethod (mkGraph [] [] [] 0%N).

Section Lowering.

(** The width of [size_t]. *)
Variable w : N.

Variable SimpleValue_attr :
  Value -> SourceRange -> Method -> string -> Result SugaredValue * Method.

Variable resolver : Resolver.

Abbreviation Scope := (gmap string SugaredValue).

(** Modelled from the spec: name lookup, sections 3 and 4.2.  The
    resolver is "called only for names not already bound in the current
    lexical scope"; absence becomes "an [UnresolvedNameError] carrying the
    name and [SourceRange]". *)
Definition resolveName (scope : Scope) (name : string) (loc : SourceRange)
  : Lower SugaredValue :=
  fun st =>
    match scope !! name with
    | Some v => (Ok v, note (Looked name loc (InScope v)) st)
    | None =>
        let st' := note (Looked name loc (Resolved (resolver name))) st in
        match resolver name with
        | Some v => (Ok v, st')
        | None => (Throw (UnresolvedNameError name loc), st')
        end
    end.

(** Modelled from the spec: section 4.3 and property 3, a call whose
    callee returns a number of outputs other than the descriptor's, when
    [allow_varargs] is false, fails with
    [ArityMismatchError(expected, actual, loc)]. *)
Definition checkOutputs (cd : CallsiteDescriptor) (loc : SourceRange)
    (outs : list Value) : Lower (list Value) :=
  if negb (allow_varargs cd) &&
     negb (N.of_nat (length outs) =? n_outputs cd)%N
  then fail (ArityMismatchError (n_outputs cd) (N.of_nat (length outs)) loc)
  else ret outs.

(** Modelled from the spec: a call expression.  The callee, then the
    inputs from left to right (section 4.2, "source-appearance order"),
    each used as a value since [call] takes [Value*] inputs (line 59),
    then [call] with the descriptor of the context. *)
Definition lowerApply (lower : Expr -> Lower SugaredValue)
    (callee : Expr) (inputs : list Expr) (attributes : list Attribute)
    (loc : SourceRange) (cd : CallsiteDescriptor) : Lower (list Value) :=
  let! f := lower callee in
  let! vs := mapM (fun e => let! v := lower e in
                            onMethod (asValue v (expr_range e))) inputs in
  let! outs := onMethod (fun m => call f loc m vs attributes cd) in
  checkOutputs cd loc outs.

(** Modelled from the spec: lowering an expression to a sugared value.
    A call in value position expects one output (section 4.3). *)
Fixpoint lowerExpr (scope : Scope) (e : Expr) {struct e}
  : Lower SugaredValue :=
  match e with
  | Var name range => resolveName scope name range
  | Select value field range =>
      let! v := lowerExpr scope value in
      onMethod (fun m => attr v range m field)
  | Apply callee inputs attributes range =>
      let! outs := lowerApply (lowerExpr scope) callee inputs attributes
                     range (mkCallsiteDescriptor 1 false) in
      match outs with
      | [v] => ret (SimpleValue SimpleValue_attr v)
      | _ => fail (ArityMismatchError 1 (N.of_nat (length outs)) range)
      end
  end.

(** Modelled from the spec: the targets of an assignment, bound in the
    scope from left to right. *)
Definition bindTargets (scope : Scope) (targets : list string)
    (vs : list SugaredValue) : Scope :=
  foldl (fun sc tv => <[tv.1 := tv.2]> sc) scope (zip targets vs).

(** Modelled from the spec: the right-hand side of a starred assignment,
    as values.  Section 4.3: for "star-unpacking" the count is the
    variadic sentinel and [allow_varargs] is true, so a call gives
    however many outputs it has; any other expression is expanded with
    [asTuple] and each part is used as a value. *)
Definition lowerStarred (scope : Scope) (rhs : Expr) (range : SourceRange)
  : Lower (list Value) :=
  match rhs with
  | Apply callee inputs attributes arange =>
      lowerApply (lowerExpr scope) callee inputs attributes arange
                 (mkCallsiteDescriptor (VARARG_OUTPUTS w) true)
  | _ =>
      let! v := lowerExpr scope rhs in
      let! vs := onMethod (asTuple v range) in
      mapM (fun part => onMethod (asValue part range)) vs
  end.

(** Modelled from the spec: a sequence of statements, each lowered in the
    scope the one before it left. *)
Definition lowerSeq (lower : Scope -> Stmt -> Lower Scope)
  : list Stmt -> Scope -> Lower Scope :=
  fix go (body : list Stmt) (scope : Scope) : Lower Scope :=
    match body with
    | [] => ret scope
    | s :: rest => let! scope' := lower scope s in go rest scope'
    end.

(** Modelled from the spec: loop unrolling (section 3, [unrolledFor]):
    the body is lowered once for each value, with the target bound to
    it. *)
Definition unroll (step : Scope -> Lower Scope) (target : string)
  : list SugaredValue -> Scope -> Lower Scope :=
  fix go (vs : list SugaredValue) (scope : Scope) : Lower Scope :=
    match vs with
    | [] => ret scope
    | v :: vs' => let! scope' := step (<[target := v]> scope) in go vs' scope'
    end.

(** Modelled from the spec: lowering a statement, giving the scope of
    the statements after it.
    - An assignment of a call to [N] targets asks the callee for [N]
      outputs; any other right-hand side is bound as it is to a single
      target, or expanded with [asTuple].
    - A starred assignment binds the first targets to the first values and
      the starred target to a tuple of the others.
    - A loop is unrolled over what [unrolledFor] returns.
    - A return uses each expression as a value. *)
Fixpoint lowerStmt (scope : Scope) (s : Stmt) {struct s} : Lower Scope :=
  match s with
  | Assign targets rhs range =>
      match rhs with
      | Apply callee inputs attributes arange =>
          let! outs := lowerApply (lowerExpr scope) callee inputs attributes
                         arange
                         (mkCallsiteDescriptor (N.of_nat (length targets)) false) in
          ret (bindTargets scope targets (map (SimpleValue SimpleValue_attr) outs))
      | _ =>
          match targets with
          | [t] =>
              let! v := lowerExpr scope rhs in
              ret (<[t := v]> scope)
          | _ =>
              let! v := lowerExpr scope rhs in
              let! vs := onMethod (asTuple v range) in
              if (length vs =? length targets)%nat
              then ret (bindTargets scope targets vs)
              else fail (ArityMismatchError (N.of_nat (length targets))
                                            (N.of_nat (length vs)) range)
          end
      end
  | StarAssign targets rest rhs range =>
      let! outs := lowerStarred scope rhs range in
      if (length outs <? length targets)%nat
      then fail (ArityMismatchError (N.of_nat (length targets))
                                    (N.of_nat (length outs)) range)
      else
        let! packed := onMethod (packTuple (drop (length targets) outs)) in
        ret (<[rest := SimpleValue SimpleValue_attr packed]>
               (bindTargets scope targets
                  (map (SimpleValue SimpleValue_attr)
                       (take (length targets) outs))))
  | For target iter body range =>
      let! v := lowerExpr scope iter in
      let! vs := onMethod (unrolledFor v range) in
      unroll (lowerSeq lowerStmt body) target vs scope
  | Return values range =>
      let! vs := mapM (fun e => let! v := lowerExpr scope e in
                                onMethod (asValue v (expr_range e))) values in
      let! _ := onMethod (registerOutputs vs) in
      ret scope
  end.

(** Modelled from the spec: the body of a definition, statement by
    statement. *)
Definition lowerStmts (scope : Scope) (body : list Stmt) : Lower Scope :=
  lowerSeq lowerStmt body scope.

(** Modelled from the spec: a formal parameter that is not the receiver
    is a new graph input, wrapped as a [SimpleValue]. *)
Fixpoint bindInputs (scope : Scope) (params : list string) : Lower Scope :=
  match params with
  | [] => ret scope
  | p :: ps =>
      let! v := onMethod addInput in
      bindInputs (<[p := SimpleValue SimpleValue_attr v]> scope) ps
  end.

(** Modelled from the spec: the scope a definition starts in.  Line 114:
    "if non-null, the first argument to each def, is bound to this
    value"; the other formals are graph inputs. *)
Definition bindFormals (self : option SugaredValue) (params : list string)
  : Lower Scope :=
  match self, params with
  | Some receiver, p :: ps =>
      let! scope := bindInputs ∅ ps in
      ret (<[p := receiver]> scope)
  | _, _ => bindInputs ∅ params
  end.

(** Modelled from the spec: section 4.4, one definition lowered into a
    new method. *)
Definition compileDefinition (self : option SugaredValue) (d : Def)
  : Result Method * LowerState :=
  (let! scope := bindFormals self (def_params d) in
   let! _ := lowerStmts scope (def_body d) in
   fun st => (Ok (ls_method st), st))
    (mkLowerState new_method []).

(** Modelled from the spec: section 4.4, [compileFunction(definition,
    resolver)] "lowers a single function definition to a standalone
    graph using only the given resolver for free names (no receiver
    binding)". *)
Definition compileFunction (def : Def) : Result Graph :=
  match compileDefinition None def with
  | (Ok m, _) => Ok (method_graph m)
  | (Throw e, _) => Throw e
  end.

(** Modelled from the spec: section 4.4, [defineMethodsInModule], in the
    order of [definitions]; "the resulting graph plus parameter list is
    registered into [module] under the definition's name".  The module
    is passed by reference: what was registered before an error stays. *)
Fixpoint defineMethodsInModule (m : MethodTable) (definitions : list Def)
    (self : option SugaredValue) : Result unit * MethodTable :=
  match definitions with
  | [] => (Ok tt, m)
  | d :: rest =>
      match compileDefinition self d with
      | (Ok method, _) =>
          defineMethodsInModule
            (register m (def_name d) (method_graph method) (def_params d))
            rest self
      | (Throw e, _) => (Throw e, m)
      end
  end.

End Lowering.

(** ** The references and the targets of a definition *)

(** The references to names in an expression, in the order the lowering
    meets them. *)
Fixpoint vars_expr (e : Expr) : list (string * SourceRange) :=
  match e with
  | Var name range => [(name, range)]
  | Select value _ _ => vars_expr value
  | Apply callee inputs _ _ => vars_expr callee ++ flat_map vars_expr inputs
  end.

(** The references of a statement outside loop bodies: those the lowering
    of the statement goes through however often loops are unrolled. *)
Definition straight_refs_stmt (s : Stmt) : list (string * SourceRange) :=
  match s with
  | Assign _ rhs _ => vars_expr rhs
  | StarAssign _ _ rhs _ => vars_expr rhs
  | For _ iter _ _ => vars_expr iter
  | Return values _ => flat_map vars_expr values
  end.

Definition straight_refs (body : list Stmt) : list (string * SourceRange) :=
  flat_map straight_refs_stmt body.

(** All the references of a statement, loop bodies included. *)
Fixpoint all_refs_stmt (s : Stmt) : list (string * SourceRange) :=
  match s with
  | Assign _ rhs _ => vars_expr rhs
  | StarAssign _ _ rhs _ => vars_expr rhs
  | For _ iter body _ => vars_expr iter ++ flat_map all_refs_stmt body
  | Return values _ => flat_map vars_expr values
  end.

Definition all_refs (body : list Stmt) : list (string * SourceRange) :=
  flat_map all_refs_stmt body.

(** The names a statement may bind, loop bodies included. *)
Fixpoint targets_stmt (s : Stmt) : list string :=
  match s with
  | Assign targets _ _ => targets
  | StarAssign targets rest _ _ => rest :: targets
  | For target _ body _ => target :: flat_map targets_stmt body
  | Return _ _ => []
  end.

Definition targets (body : list Stmt) : list string :=
  flat_map targets_stmt body.

(** ** Predicates on the events of a lowering *)

(** An event after which the lowering goes on. *)
Definition nonfailing (ev : Event) : Prop :=
  match ev with
  | Looked _ _ (InScope _) => True
  | Looked _ _ (Resolved (Some _)) => True
  | Looked _ _ (Resolved None) => False
  | Failed _ => False
  end.

(** [fails_with ev e]: the event [ev] is an error, and [e] is that error:
    a name the resolver does not know, or what an operation or a check
    threw. *)
Definition fails_with (ev : Event) (e : Error) : Prop :=
  match ev with
  | Looked name range (Resolved None) => e = UnresolvedNameError name range
  | Failed e' => e = e'
  | _ => False
  end.

(** A reference whose value came from the scope. *)
Definition from_scope (ev : Event) : Prop :=
  match ev with
  | Looked _ _ (InScope _) => True
  | _ => False
  end.

Definition lookup_ok (L : string -> SourceRange -> Origin -> Prop)
    (ev : Event) : Prop :=
  match ev with
  | Looked name range origin => L name range origin
  | Failed _ => True
  end.

(** [runs L C Q c]: from any state, [c] appends events to the trace; the
    lookups among them satisfy [L].  When [c] returns, none of the events
    is an error, the result satisfies [Q] and every reference of [C] was
    looked up.  When [c] throws, the last event is the error thrown and
    no event before it is an error. *)
Definition runs {A} (L : string -> SourceRange -> Origin -> Prop)
    (C : list (string * SourceRange)) (Q : A -> Prop) (c : Lower A) : Prop :=
  forall st, exists evs,
    ls_events (c st).2 = ls_events st ++ evs
    /\ Forall (lookup_ok L) evs
    /\ match (c st).1 with
       | Ok a =>
           Forall nonfailing evs /\ Q a
           /\ (forall ref, ref ∈ C -> exists o, Looked ref.1 ref.2 o ∈ evs)
       | Throw e =>
           exists evs0 ev,
             evs = evs0 ++ [ev] /\ Forall nonfailing evs0 /\ fails_with ev e
       end.

(** The origin of the value of a name that the body never binds, given
    the scope [entry] the definition starts in. *)
Definition origin_of (resolver : Resolver) (entry : gmap string SugaredValue)
    (name : string) : Origin :=
  match entry !! name with
  | Some v => InScope v
  | None => Resolved (resolver name)
  end.

(** What the lowering of a definition guarantees of each lookup, given
    the scope [entry] the definition starts in, the names [T] its body may
    bind and its references [R]: the reference is one of [R]; an answer of
    the resolver is the resolver's answer for that name; a name bound at
    entry is never handed to the resolver; a name the body never binds
    has the origin it had at entry. *)
Definition lookup_spec (resolver : Resolver) (entry : gmap string SugaredValue)
    (T : gset string) (R : list (string * SourceRange))
    (name : string) (range : SourceRange) (origin : Origin) : Prop :=
  (name, range) ∈ R
  /\ (forall answer, origin = Resolved answer -> answer = resolver name)
  /\ (name ∈ dom entry -> exists v, origin = InScope v)
  /\ (name ∉ T -> origin = origin_of resolver entry name).

(** What every scope of the lowering keeps of the scope at entry. *)
Definition scope_inv (entry : gmap string SugaredValue) (T : gset string)
    (scope : gmap string SugaredValue) : Prop :=
  dom entry ⊆ dom scope
  /\ (forall name, name ∉ T -> scope !! name = entry !! name).

(** ** Sample collaborators and definitions *)

(** An operator table with a one-output and a two-output operator. *)
Definition sample_table (name : string) (inputs : list Value)
  : option Operator :=
  if String.eqb name "add" then Some (mkOperator "aten::add" 1)
  else if String.eqb name "split" then Some (mkOperator "aten::split" 2)
  else None.

(** An attribute table for values: [x.f] is the built-in [f] bound to
    [x]. *)
Definition sample_attr (value : Value) (loc : SourceRange) (m : Method)
    (field : string) : Result SugaredValue * Method :=
  (Ok (BuiltinFunction sample_table field (Some value)), m).

(** A resolver that knows the two built-ins by name. *)
Definition sample_resolver : Resolver :=
  fun name =>
    if String.eqb name "add" then Some (BuiltinFunction sample_table "add" None)
    else if String.eqb name "split"
    then Some (BuiltinFunction sample_table "split" None)
    else None.

Definition absent_resolver : Resolver := fun _ => None.

Definition at_ (n : N) : SourceRange := mkRange n (n + 1).

Definition sample_invocation : Invocation :=
  mkInvocation (at_ 3) "weight" [4%N; 5%N] []
               (mkCallsiteDescriptor 1 false).

Definition sample_def : Def :=
  mkDef "f" ["x"; "y"]
    [Assign ["z"] (Apply (Var "add" (at_ 1)) [Var "x" (at_ 2); Var "y" (at_ 3)]
                         [] (at_ 4)) (at_ 5);
     Return [Var "z" (at_ 6)] (at_ 7)].

Definition sample_bad_arity : Def :=
  mkDef "h" ["x"]
    [Assign ["a"; "b"; "c"]
            (Apply (Var "split" (at_ 1)) [Var "x" (at_ 2)] [] (at_ 3)) (at_ 4)].

(** A module-like receiver: every attribute of it is a value of the
    graph. *)
Definition sample_receiver : SugaredValue :=
  {| kind := "module";
     asValue_override := None;
     attr_override :=
       Some (fun loc m field => (Ok (SimpleValue sample_attr 100%N), m));
     asTuple_override := None;
     call_override := None;
     unrolledFor_override := None |}.

(** [def forward(self, x): y = add(x, self.weight); return y] *)
Definition sample_method : Def :=
  mkDef "forward" ["self"; "x"]
    [Assign ["y"]
            (Apply (Var "add" (at_ 1))
                   [Var "x" (at_ 2); Select (Var "self" (at_ 3)) "weight" (at_ 4)]
                   [] (at_ 5)) (at_ 6);
     Return [Var "y" (at_ 7)] (at_ 8)].

(** [def g(x): a = x(); return y] *)
Definition sample_call_then_free : Def :=
  mkDef "g" ["x"]
    [Assign ["a"] (Apply (Var "x" (at_ 1)) [] [] (at_ 2)) (at_ 3);
     Return [Var "y" (at_ 4)] (at_ 5)].

(** [def k(x): return x.relu(y)] *)
Definition sample_free : Def :=
  mkDef "k" ["x"]
    [Return [Apply (Select (Var "x" (at_ 1)) "relu" (at_ 2))
                   [Var "y" (at_ 3)] [] (at_ 4)] (at_ 5)].

(** A container-like receiver: iterating it gives two values of the
    graph. *)
Definition sample_container : SugaredValue :=
  {| kind := "module list";
     asValue_override := None;
     attr_override := None;
     asTuple_override := None;
     call_override := None;
     unrolledFor_override :=
       Some (fun loc m =>
               (Ok [SimpleValue sample_attr 100%N; SimpleValue sample_attr 101%N],
                m)) |}.

(** [def forward(self, x): for layer in self: x = add(x, layer); return x] *)
Definition sample_loop : Def :=
  mkDef "forward" ["self"; "x"]
    [For "layer" (Var "self" (at_ 1))
         [Assign ["x"]
                 (Apply (Var "add" (at_ 2))
                        [Var "x" (at_ 3); Var "layer" (at_ 4)] [] (at_ 5))
                 (at_ 6)]
         (at_ 7);
     Return [Var "x" (at_ 8)] (at_ 9)].

(** [def s(x): a, *rest = split(x); return a, rest] *)
Definition sample_star : Def :=
  mkDef "s" ["x"]
    [StarAssign ["a"] "rest"
                (Apply (Var "split" (at_ 1)) [Var "x" (at_ 2)] [] (at_ 3))
                (at_ 4);
     Return [Var "a" (at_ 5); Var "rest" (at_ 6)] (at_ 7)].

(** [def u(x): y = add(x, x); z = foo(y); return z] *)
Definition sample_unresolved : Def :=
  mkDef "u" ["x"]
    [Assign ["y"] (Apply (Var "add" (at_ 1)) [Var "x" (at_ 2); Var "x" (at_ 3)]
                         [] (at_ 4)) (at_ 5);
     Assign ["z"] (Apply (Var "foo" (at_ 6)) [Var "y" (at_ 7)] [] (at_ 8))
            (at_ 9);
     Return [Var "z" (at_ 10)] (at_ 11)].

(** An attribute table for values whose attributes are all empty
    containers. *)
Definition sample_attr_empty (value : Value) (loc : SourceRange) (m : Method)
    (field : string) : Result SugaredValue * Method :=
  (Ok {| kind := "list";
         asValue_override := None;
         attr_override := None;
         asTuple_override := None;
         call_override := None;
         unrolledFor_override := Some (fun loc m => (Ok [], m)) |},
   m).

(** [def e(x): for i in x.items: y = z] *)
Definition sample_empty_loop : Def :=
  mkDef "e" ["x"]
    [For "i" (Select (Var "x" (at_ 1)) "items" (at_ 2))
         [Assign ["y"] (Var "z" (at_ 3)) (at_ 4)]
         (at_ 5)].

(** [def m(self, x): self = add(x, x); return self] *)
Definition sample_rebinds : Def :=
  mkDef "m" ["self"; "x"]
    [Assign ["self"]
            (Apply (Var "add" (at_ 1)) [Var "x" (at_ 2); Var "x" (at_ 3)]
                   [] (at_ 4)) (at_ 5);
     Return [Var "self" (at_ 6)] (at_ 7)].

(** ** Further notions for the header *)

(** Two of the default messages of lines 40-70 start with a fixed phrase,
    "attribute lookup is not defined on " and "cannot call a "; the three
    others start with the kind.  [starts_like_a_phrase k]: the kind [k]
    starts with the first letter of one of the two phrases. *)
Definition starts_like_a_phrase (k : string) : bool :=
  String.prefix "a" k || String.prefix "c" k.

(** Conversion of an integer to a [w]-bit [size_t]: reduction modulo
    [2^w], as [static_cast<size_t>] does. *)
Definition size_t_wrap (w : N) (z : Z) : N :=
  Z.to_N (z mod 2 ^ Z.of_N w).

(** * Properties *)

Lemma string_length_app (a b : string) :
  String.length (a +:+ b) = (String.length a + String.length b)%nat.
Proof. induction a as [|ch a IH]; simpl; [reflexivity | now f_equal]. Qed.

Lemma string_app_empty_r (a : string) : a +:+ "" = a.
Proof.
  induction a as [|ch a IH]; [reflexivity|].
  change (String ch (a +:+ "") = String ch a). now rewrite IH.
Qed.

Lemma default_message_length c k :
  String.length (default_message c k) =
  (String.length k +
   match c with
   | CapAsValue => 26 | CapAttr => 35 | CapAsTuple => 24
   | CapCall => 14 | CapUnrolledFor => 16
   end)%nat.
Proof.
  destruct c; simpl default_message; rewrite string_length_app; simpl; lia.
Qed.

Lemma default_message_inj c c' k :
  default_message c' k = default_message c k -> c' = c.
Proof.
  intros H. apply (f_equal String.length) in H.
  rewrite !default_message_length in H.
  destruct c, c'; try reflexivity; exfalso; lia.
Qed.

(** ** The throwing defaults *)

Lemma kind_in_default_message c k :
  exists pre post, default_message c k = pre +:+ k +:+ post.
Proof.
  destruct c; simpl.
  - exists "", " cannot be used as a value"; reflexivity.
  - exists "attribute lookup is not defined on ", "".
    now rewrite string_app_empty_r.
  - exists "", " cannot be used as tuple"; reflexivity.
  - exists "cannot call a ", "".
    now rewrite string_app_empty_r.
  - exists "", " is not iterable"; reflexivity.
Qed.

Lemma invoke_default (this : SugaredValue) (c : Capability) (i : Invocation)
    (m : Method) :
  overrides this c = false ->
  invoke c this i m =
  (Some (ErrorReport (inv_loc i) (default_message c (kind this))), m).
Proof.
  intros H.
  destruct c; simpl in H; apply bool_decide_eq_false in H;
    unfold invoke, asValue, attr, asTuple, call, unrolledFor.
  - destruct (asValue_override this); [destruct H; eauto | reflexivity].
  - destruct (attr_override this); [destruct H; eauto | reflexivity].
  - destruct (asTuple_override this); [destruct H; eauto | reflexivity].
  - destruct (call_override this); [destruct H; eauto | reflexivity].
  - destruct (unrolledFor_override this); [destruct H; eauto | reflexivity].
Qed.

(** C1.  Whatever the variant, an operation it does not override ends in
    an [ErrorReport] at the range of the call site and leaves the method,
    hence its graph, as it was; nothing is returned.  The message contains
    the variant's [kind()], and among the five default messages for that
    kind it is the one of the operation invoked and of no other. *)
Theorem default_capability_fails (this : SugaredValue) (c : Capability)
    (i : Invocation) (m : Method) :
  overrides this c = false ->
  invoke c this i m =
    (Some (ErrorReport (inv_loc i) (default_message c (kind this))), m)
  /\ (exists pre post, default_message c (kind this) = pre +:+ kind this +:+ post)
  /\ (forall c', default_message c' (kind this) = default_message c (kind this) ->
                 c' = c).
Proof.
  intros H. split; [now apply invoke_default|].
  split; [apply kind_in_default_message|].
  intros c'. apply default_message_inj.
Qed.

(** C7.  [SimpleValue(v).asValue(range, m)] returns the wrapped handle
    [v] and the method unchanged: no node is emitted. *)
Theorem SimpleValue_asValue
    (SimpleValue_attr :
       Value -> SourceRange -> Method -> string -> Result SugaredValue * Method)
    (v : Value) (range : SourceRange) (m : Method) :
  asValue (SimpleValue SimpleValue_attr v) range m = (Ok v, m).
Proof. reflexivity. Qed.

(** C9.  [VARARG_OUTPUTS] is [2^w - 1], the largest [size_t]: a descriptor
    asking for that many outputs is the descriptor carrying the sentinel,
    and every smaller count differs from the sentinel. *)
Theorem VARARG_OUTPUTS_in_band (w : N) :
  VARARG_OUTPUTS w = (2 ^ w - 1)%N
  /\ is_size_t w (VARARG_OUTPUTS w)
  /\ (forall n, is_size_t w n -> (n <= VARARG_OUTPUTS w)%N)
  /\ (forall n b, n = (2 ^ w - 1)%N ->
        mkCallsiteDescriptor n b = mkCallsiteDescriptor (VARARG_OUTPUTS w) b)
  /\ (forall n b b', (n < 2 ^ w - 1)%N ->
        mkCallsiteDescriptor n b <> mkCallsiteDescriptor (VARARG_OUTPUTS w) b').
Proof.
  unfold VARARG_OUTPUTS, size_t_max, is_size_t.
  assert (Hpos : (0 < 2 ^ w)%N) by (apply N.neq_0_lt_0, N.pow_nonzero; discriminate).
  repeat split.
  - lia.
  - intros n Hn. lia.
  - intros n b ->. reflexivity.
  - intros n b b' Hn Heq. injection Heq as Heq _. lia.
Qed.

(** C10.  A [BuiltinFunction] overrides [call] and nothing else, with or
    without a bound value: used as a value, for an attribute, as a tuple
    or in a loop it throws the default report for kind "builtin". *)
Theorem BuiltinFunction_only_call
    (operator_table : string -> list Value -> option Operator)
    (name : string) (v : Value) (loc : SourceRange) (m : Method)
    (field : string) :
  let b := BuiltinFunction operator_table name (Some v) in
  asValue b loc m =
    (Throw (ErrorReport loc "builtin cannot be used as a value"), m)
  /\ attr b loc m field =
    (Throw (ErrorReport loc "attribute lookup is not defined on builtin"), m)
  /\ asTuple b loc m =
    (Throw (ErrorReport loc "builtin cannot be used as tuple"), m)
  /\ unrolledFor b loc m =
    (Throw (ErrorReport loc "builtin is not iterable"), m)
  /\ (forall c, overrides b c = true <-> c = CapCall).
Proof.
  simpl. repeat split; try reflexivity.
  - destruct c; simpl; intros H; try reflexivity; discriminate.
  - intros ->. reflexivity.
Qed.

Lemma default_capability_fails_witness :
  overrides (SimpleValue sample_attr 7%N) CapCall = false
  /\ invoke CapCall (SimpleValue sample_attr 7%N) sample_invocation new_method
     = (Some (ErrorReport (at_ 3) "cannot call a value"), new_method).
Proof.
  split; [reflexivity|].
  apply (default_capability_fails (SimpleValue sample_attr 7%N) CapCall
           sample_invocation new_method).
  reflexivity.
Defined.

(** ** [BuiltinFunction::call] *)

Lemma length_fresh_values next count :
  N.of_nat (length (fresh_values next count)) = count.
Proof.
  unfold fresh_values. rewrite length_map, length_seq. apply N2Nat.id.
Qed.

(** C2.  When the descriptor does not allow varargs and asks for a
    number of outputs other than the one the resolved operator declares,
    [call] on a built-in throws [ArityMismatchError(expected, actual, loc)]
    while lowering and emits no node. *)
Theorem BuiltinFunction_call_arity_mismatch
    (operator_table : string -> list Value -> option Operator)
    (name : string) (value : option Value) (loc : SourceRange) (m : Method)
    (inputs : list Value) (attributes : list Attribute)
    (cd : CallsiteDescriptor) (op : Operator) :
  operator_table name (option_list value ++ inputs) = Some op ->
  allow_varargs cd = false ->
  n_outputs cd <> op_n_outputs op ->
  call (BuiltinFunction operator_table name value) loc m inputs attributes cd
  = (Throw (ArityMismatchError (n_outputs cd) (op_n_outputs op) loc), m).
Proof.
  intros Hop Hva Hne. unfold call. simpl. unfold BuiltinFunction_call.
  rewrite Hop, Hva. simpl.
  destruct (N.eqb_spec (n_outputs cd) (op_n_outputs op)) as [E|_];
    [contradiction | reflexivity].
Qed.

Lemma BuiltinFunction_call_arity_mismatch_witness :
  call (BuiltinFunction sample_table "split" None) (at_ 3) new_method
       [0%N] [] (mkCallsiteDescriptor 3 false)
  = (Throw (ArityMismatchError 3 2 (at_ 3)), new_method).
Proof.
  apply (BuiltinFunction_call_arity_mismatch sample_table "split" None (at_ 3)
           new_method [0%N] [] (mkCallsiteDescriptor 3 false)
           (mkOperator "aten::split" 2)).
  - reflexivity.
  - reflexivity.
  - discriminate.
Defined.

(** C3.  When the table resolves the name and the descriptor agrees with
    the operator's declared output count (or allows varargs), [call] on a
    built-in appends exactly one node to the graph, whose inputs are the
    bound value, if any, followed by the call's inputs, and returns that
    node's outputs, as many as the operator declares. *)
Theorem BuiltinFunction_call_emits_one_node
    (operator_table : string -> list Value -> option Operator)
    (name : string) (value : option Value) (loc : SourceRange) (m : Method)
    (inputs : list Value) (attributes : list Attribute)
    (cd : CallsiteDescriptor) (op : Operator) :
  operator_table name (option_list value ++ inputs) = Some op ->
  allow_varargs cd = true \/ n_outputs cd = op_n_outputs op ->
  exists outs m',
    call (BuiltinFunction operator_table name value) loc m inputs attributes cd
      = (Ok outs, m')
    /\ graph_nodes (method_graph m') =
         graph_nodes (method_graph m) ++
         [mkNode (op_kind op) (option_list value ++ inputs) attributes outs]
    /\ N.of_nat (length outs) = op_n_outputs op
    /\ graph_inputs (method_graph m') = graph_inputs (method_graph m)
    /\ graph_outputs (method_graph m') = graph_outputs (method_graph m).
Proof.
  intros Hop Hok. unfold call. simpl. unfold BuiltinFunction_call.
  rewrite Hop.
  assert (Hc : negb (allow_varargs cd) &&
               negb (n_outputs cd =? op_n_outputs op)%N = false).
  { destruct Hok as [-> | ->]; [reflexivity|].
    rewrite N.eqb_refl. apply andb_false_r. }
  rewrite Hc. unfold emitNode.
  eexists _, _. split; [reflexivity|]. simpl.
  repeat split. apply length_fresh_values.
Qed.

Lemma BuiltinFunction_call_emits_one_node_witness :
  exists outs m',
    call (BuiltinFunction sample_table "add" (Some 0%N)) (at_ 3) new_method
         [1%N] [] (mkCallsiteDescriptor 1 false) = (Ok outs, m')
    /\ graph_nodes (method_graph m') =
         [] ++ [mkNode "aten::add" [0%N; 1%N] [] outs]
    /\ N.of_nat (length outs) = 1%N
    /\ graph_inputs (method_graph m') = []
    /\ graph_outputs (method_graph m') = [].
Proof.
  apply (BuiltinFunction_call_emits_one_node sample_table "add" (Some 0%N)
           (at_ 3) new_method [1%N] [] (mkCallsiteDescriptor 1 false)
           (mkOperator "aten::add" 1)).
  - reflexivity.
  - right. reflexivity.
Defined.

(** ** The events of a lowering *)

Lemma Expr_nested_ind (P : Expr -> Prop) :
  (forall name range, P (Var name range)) ->
  (forall value field range, P value -> P (Select value field range)) ->
  (forall callee inputs attributes range,
      P callee -> Forall P inputs -> P (Apply callee inputs attributes range)) ->
  forall e, P e.
Proof.
  intros HVar HSelect HApply. fix IH 1.
  intros [name range | value field range | callee inputs attributes range].
  - apply HVar.
  - apply HSelect, IH.
  - apply HApply; [apply IH|].
    revert inputs. fix IHl 1. intros [|e inputs]; constructor;
      [apply IH | apply IHl].
Qed.

Lemma Stmt_nested_ind (P : Stmt -> Prop) :
  (forall targets rhs range, P (Assign targets rhs range)) ->
  (forall targets rest rhs range, P (StarAssign targets rest rhs range)) ->
  (forall target iter body range,
      Forall P body -> P (For target iter body range)) ->
  (forall values range, P (Return values range)) ->
  forall s, P s.
Proof.
  intros HAssign HStar HFor HReturn. fix IH 1.
  intros [targets rhs range | targets rest rhs range
         | target iter body range | values range].
  - apply HAssign.
  - apply HStar.
  - apply HFor. revert body. fix IHl 1. intros [|s body]; constructor;
      [apply IH | apply IHl].
  - apply HReturn.
Qed.

Section Runs.

Variable L : string -> SourceRange -> Origin -> Prop.

Lemma runs_ret {A} (Q : A -> Prop) a : Q a -> runs L [] Q (ret a).
Proof.
  intros HQ st. exists []. simpl. rewrite app_nil_r.
  split; [reflexivity|]. split; [constructor|].
  split; [constructor|]. split; [exact HQ|].
  intros ref Href. inversion Href.
Qed.

Lemma runs_fail {A} C (Q : A -> Prop) e : runs L C Q (fail e).
Proof.
  intros st. exists [Failed e]. simpl.
  split; [reflexivity|]. split; [repeat constructor|].
  exists [], (Failed e). repeat split. constructor.
Qed.

Lemma runs_onMethod {A} (op : Method -> Result A * Method) :
  runs L [] (fun _ => True) (onMethod op).
Proof.
  intros st. unfold onMethod. destruct (op (ls_method st)) as [[a|e] m']; simpl.
  - exists []. rewrite app_nil_r.
    split; [reflexivity|]. split; [constructor|].
    split; [constructor|]. split; [trivial|].
    intros ref Href. inversion Href.
  - exists [Failed e].
    split; [reflexivity|]. split; [repeat constructor|].
    exists [], (Failed e). repeat split. constructor.
Qed.

Lemma runs_weaken {A} C C' (Q Q' : A -> Prop) c :
  C' ⊆ C -> (forall a, Q a -> Q' a) -> runs L C Q c -> runs L C' Q' c.
Proof.
  intros HC HQ Hc st. destruct (Hc st) as (evs & Hev & HL & Hr).
  exists evs. split; [exact Hev|]. split; [exact HL|].
  destruct (c st).1 as [a|e]; [|exact Hr].
  destruct Hr as (Hnf & Ha & Hcov). split; [exact Hnf|]. split; [auto|].
  intros ref Href. apply Hcov, HC, Href.
Qed.

Lemma runs_bind {A B} C1 C2 (Q1 : A -> Prop) (Q2 : B -> Prop) c k :
  runs L C1 Q1 c -> (forall a, Q1 a -> runs L C2 Q2 (k a)) ->
  runs L (C1 ++ C2) Q2 (bind c k).
Proof.
  intros Hc Hk st. unfold bind.
  destruct (Hc st) as (evs1 & Hev1 & HL1 & Hr1).
  destruct (c st) as [[a|e] st1]; simpl in *.
  - destruct Hr1 as (Hnf1 & Ha & Hcov1).
    destruct (Hk a Ha st1) as (evs2 & Hev2 & HL2 & Hr2).
    exists (evs1 ++ evs2).
    split; [now rewrite Hev2, Hev1, app_assoc|].
    split; [now apply Forall_app|].
    destruct (k a st1) as [[b|e] st2]; simpl in *.
    + destruct Hr2 as (Hnf2 & Hb & Hcov2).
      split; [now apply Forall_app|]. split; [exact Hb|].
      intros ref [Href|Href]%elem_of_app.
      * destruct (Hcov1 ref Href) as [o Ho]. exists o.
        apply elem_of_app. now left.
      * destruct (Hcov2 ref Href) as [o Ho]. exists o.
        apply elem_of_app. now right.
    + destruct Hr2 as (evs0 & ev & -> & Hnf2 & Hfail).
      exists (evs1 ++ evs0), ev.
      split; [now rewrite app_assoc|]. split; [now apply Forall_app | exact Hfail].
  - exists evs1. split; [exact Hev1|]. split; [exact HL1 | exact Hr1].
Qed.

Lemma runs_bind_l {A B} C2 (Q1 : A -> Prop) (Q2 : B -> Prop) c k :
  runs L [] Q1 c -> (forall a, Q1 a -> runs L C2 Q2 (k a)) ->
  runs L C2 Q2 (bind c k).
Proof. intros Hc Hk. exact (runs_bind [] C2 Q1 Q2 c k Hc Hk). Qed.

Lemma runs_bind_r {A B} C1 (Q1 : A -> Prop) (Q2 : B -> Prop) c k :
  runs L C1 Q1 c -> (forall a, Q1 a -> runs L [] Q2 (k a)) ->
  runs L C1 Q2 (bind c k).
Proof.
  intros Hc Hk. rewrite <- (app_nil_r C1).
  exact (runs_bind C1 [] Q1 Q2 c k Hc Hk).
Qed.

Lemma runs_mapM {A B} (F : A -> list (string * SourceRange))
    (f : A -> Lower B) (l : list A) :
  Forall (fun a => runs L (F a) (fun _ => True) (f a)) l ->
  runs L (flat_map F l) (fun _ => True) (mapM f l).
Proof.
  induction 1 as [|a l Ha _ IH]; simpl.
  - now apply runs_ret.
  - eapply runs_bind; [exact Ha|]. intros b _.
    eapply runs_bind_r; [exact IH|]. intros bs _. now apply runs_ret.
Qed.

Lemma runs_checkOutputs cd loc outs :
  runs L [] (fun outs' => allow_varargs cd = false ->
                          N.of_nat (length outs') = n_outputs cd)
       (checkOutputs cd loc outs).
Proof.
  unfold checkOutputs.
  destruct (allow_varargs cd) eqn:Hva; simpl.
  - apply runs_ret. discriminate.
  - destruct (N.eqb_spec (N.of_nat (length outs)) (n_outputs cd)) as [E|_]; simpl.
    + apply runs_ret. intros _. exact E.
    + apply runs_fail.
Qed.

Lemma runs_lowerApply F lower callee inputs attributes loc cd :
  runs L (F callee) (fun _ => True) (lower callee) ->
  Forall (fun e => runs L (F e) (fun _ => True) (lower e)) inputs ->
  runs L (F callee ++ flat_map F inputs)
       (fun outs => allow_varargs cd = false ->
                    N.of_nat (length outs) = n_outputs cd)
       (lowerApply lower callee inputs attributes loc cd).
Proof.
  intros Hc Hin. unfold lowerApply.
  eapply runs_bind; [exact Hc|]. intros f _.
  eapply runs_bind_r.
  { apply runs_mapM. eapply Forall_impl; [exact Hin|].
    intros e He. simpl. eapply runs_bind_r; [exact He|].
    intros v _. apply runs_onMethod. }
  intros vs _. eapply runs_bind_l; [apply runs_onMethod|].
  intros outs _. apply runs_checkOutputs.
Qed.

Lemma runs_unroll C (I : gmap string SugaredValue -> Prop) step target vs :
  (forall scope v, I scope -> I (<[target := v]> scope)) ->
  (forall scope, I scope -> runs L C I (step scope)) ->
  forall scope, I scope -> runs L [] I (unroll step target vs scope).
Proof.
  intros Hbind Hstep. induction vs as [|v vs IH]; intros scope HI; simpl.
  - now apply runs_ret.
  - eapply runs_bind_l.
    + apply (runs_weaken C [] I I);
        [intros ref Href; inversion Href | auto | apply Hstep, Hbind, HI].
    + intros scope' HI'. now apply IH.
Qed.

End Runs.

Lemma elem_of_flat_map {A B} (f : A -> list B) (l : list A) (y : B) :
  y ∈ flat_map f l <-> exists x, x ∈ l /\ y ∈ f x.
Proof.
  induction l as [|a l IH]; simpl.
  - split; [intros H; inversion H | intros (x & H & _); inversion H].
  - rewrite elem_of_app, IH. split.
    + intros [H | (x & Hx & Hy)]; [exists a | exists x]; split; auto;
        [apply list_elem_of_here | now apply list_elem_of_further].
    + intros (x & [-> | Hx]%elem_of_cons & Hy); [now left | right; eauto].
Qed.

Lemma nonfailing_not_fails ev e : nonfailing ev -> fails_with ev e -> False.
Proof. destruct ev as [name range [v|[v|]] | e']; simpl; tauto. Qed.

Lemma fails_with_inj ev e e' : fails_with ev e -> fails_with ev e' -> e = e'.
Proof.
  destruct ev as [name range [v|[v|]] | e'']; simpl; try tauto; congruence.
Qed.

(** When an error is among the events of a computation that threw, it
    is the last event and the error thrown. *)
Lemma failing_event_is_last evs0 ev0 e0 ev e :
  Forall nonfailing evs0 -> fails_with ev0 e0 ->
  ev ∈ evs0 ++ [ev0] -> fails_with ev e ->
  ev = ev0 /\ e = e0.
Proof.
  intros Hnf H0 [Hin | ->%list_elem_of_singleton]%elem_of_app Hev.
  - exfalso. rewrite Forall_forall in Hnf.
    exact (nonfailing_not_fails ev e (Hnf ev Hin) Hev).
  - split; [reflexivity | exact (fails_with_inj ev0 e e0 Hev H0)].
Qed.

Section Lookups.

Variable w : N.

Variable SimpleValue_attr :
  Value -> SourceRange -> Method -> string -> Result SugaredValue * Method.

Variable resolver : Resolver.

Variable entry : gmap string SugaredValue.
Variable T : gset string.
Variable R : list (string * SourceRange).

Lemma lowerExpr_Apply scope callee inputs attributes range :
  lowerExpr SimpleValue_attr resolver scope (Apply callee inputs attributes range)
  = (let! outs := lowerApply (lowerExpr SimpleValue_attr resolver scope)
                    callee inputs attributes range
                    (mkCallsiteDescriptor 1 false) in
     match outs with
     | [v] => ret (SimpleValue SimpleValue_attr v)
     | _ => fail (ArityMismatchError 1 (N.of_nat (length outs)) range)
     end).
Proof. reflexivity. Qed.

Lemma lowerStmt_Assign_Apply scope targets callee inputs attributes arange range :
  lowerStmt w SimpleValue_attr resolver scope
            (Assign targets (Apply callee inputs attributes arange) range)
  = (let! outs := lowerApply (lowerExpr SimpleValue_attr resolver scope)
                    callee inputs attributes arange
                    (mkCallsiteDescriptor (N.of_nat (length targets)) false) in
     ret (bindTargets scope targets (map (SimpleValue SimpleValue_attr) outs))).
Proof. reflexivity. Qed.

Lemma lowerStmt_StarAssign scope targets rest rhs range :
  lowerStmt w SimpleValue_attr resolver scope (StarAssign targets rest rhs range)
  = (let! outs := lowerStarred w SimpleValue_attr resolver scope rhs range in
     if (length outs <? length targets)%nat
     then fail (ArityMismatchError (N.of_nat (length targets))
                                   (N.of_nat (length outs)) range)
     else
       let! packed := onMethod (packTuple (drop (length targets) outs)) in
       ret (<[rest := SimpleValue SimpleValue_attr packed]>
              (bindTargets scope targets
                 (map (SimpleValue SimpleValue_attr)
                      (take (length targets) outs))))).
Proof. reflexivity. Qed.

Lemma lowerStmt_For scope target iter body range :
  lowerStmt w SimpleValue_attr resolver scope (For target iter body range)
  = (let! v := lowerExpr SimpleValue_attr resolver scope iter in
     let! vs := onMethod (unrolledFor v range) in
     unroll (lowerSeq (lowerStmt w SimpleValue_attr resolver) body)
            target vs scope).
Proof. reflexivity. Qed.

Lemma lowerStmt_Return scope values range :
  lowerStmt w SimpleValue_attr resolver scope (Return values range)
  = (let! vs := mapM (fun e => let! v := lowerExpr SimpleValue_attr resolver scope e in
                               onMethod (asValue v (expr_range e))) values in
     let! _ := onMethod (registerOutputs vs) in
     ret scope).
Proof. reflexivity. Qed.

Lemma scope_inv_insert scope t v :
  scope_inv entry T scope -> t ∈ T -> scope_inv entry T (<[t := v]> scope).
Proof.
  intros [Hdom Hkeep] Ht. split.
  - rewrite dom_insert_L. set_solver.
  - intros name Hname. rewrite lookup_insert_ne; [now apply Hkeep|].
    intros ->. contradiction.
Qed.

Lemma scope_inv_bindTargets targets : forall scope vs,
  scope_inv entry T scope -> (forall t, t ∈ targets -> t ∈ T) ->
  scope_inv entry T (bindTargets scope targets vs).
Proof.
  unfold bindTargets.
  induction targets as [|t targets IH]; intros scope [|v vs] HI HT; simpl;
    try exact HI.
  apply IH.
  - apply scope_inv_insert; [exact HI | apply HT, list_elem_of_here].
  - intros t' Ht'. now apply HT, list_elem_of_further.
Qed.

Lemma runs_resolveName scope name loc :
  scope_inv entry T scope -> (name, loc) ∈ R ->
  runs (lookup_spec resolver entry T R) [(name, loc)] (fun _ => True)
       (resolveName resolver scope name loc).
Proof.
  intros [Hdom Hkeep] HR st. unfold resolveName.
  destruct (scope !! name) as [v|] eqn:E1.
  - exists [Looked name loc (InScope v)]. simpl.
    split; [reflexivity|]. split.
    { constructor; [|constructor]. simpl. split; [exact HR|].
      split; [discriminate|]. split; [eauto|].
      intros HT. unfold origin_of. now rewrite <- (Hkeep name HT), E1. }
    split; [repeat constructor|]. split; [trivial|].
    intros ref ->%list_elem_of_singleton. exists (InScope v).
    apply list_elem_of_singleton. reflexivity.
  - assert (HL : forall answer, answer = resolver name ->
                  lookup_spec resolver entry T R name loc (Resolved answer)).
    { intros answer ->. split; [exact HR|].
      split; [now intros ? [= <-]|]. split.
      - intros Hin. apply Hdom, elem_of_dom in Hin as [v Hv]. congruence.
      - intros HT. unfold origin_of. now rewrite <- (Hkeep name HT), E1. }
    destruct (resolver name) as [v|] eqn:E2; simpl.
    + exists [Looked name loc (Resolved (Some v))].
      split; [reflexivity|]. split; [constructor; [now apply HL | constructor]|].
      split; [repeat constructor|]. split; [trivial|].
      intros ref ->%list_elem_of_singleton. exists (Resolved (Some v)).
      apply list_elem_of_singleton. reflexivity.
    + exists [Looked name loc (Resolved None)].
      split; [reflexivity|]. split; [constructor; [now apply HL | constructor]|].
      exists [], (Looked name loc (Resolved None)).
      repeat split. constructor.
Qed.

Lemma runs_lowerExpr scope e :
  scope_inv entry T scope -> vars_expr e ⊆ R ->
  runs (lookup_spec resolver entry T R) (vars_expr e) (fun _ => True)
       (lowerExpr SimpleValue_attr resolver scope e).
Proof.
  intros HI. induction e as [name range | value field range IH
                            | callee inputs attributes range IHc IHin]
                   using Expr_nested_ind; intros HR.
  - simpl. apply runs_resolveName; [exact HI|].
    apply HR, list_elem_of_singleton. reflexivity.
  - simpl. eapply runs_bind_r; [now apply IH|].
    intros v _. apply runs_onMethod.
  - rewrite lowerExpr_Apply. simpl vars_expr in *.
    eapply runs_bind_r.
    + apply (runs_lowerApply _ vars_expr).
      * apply IHc. intros ref Href. apply HR, elem_of_app. now left.
      * rewrite Forall_forall in IHin. apply Forall_forall. intros e He.
        apply IHin; [exact He|]. intros ref Href.
        apply HR, elem_of_app. right. apply elem_of_flat_map. eauto.
    + intros outs _. destruct outs as [|v [|v' outs]];
        [apply runs_fail | now apply runs_ret | apply runs_fail].
Qed.

Lemma runs_lowerStarred scope rhs range :
  scope_inv entry T scope -> vars_expr rhs ⊆ R ->
  runs (lookup_spec resolver entry T R) (vars_expr rhs) (fun _ => True)
       (lowerStarred w SimpleValue_attr resolver scope rhs range).
Proof.
  intros HI HR.
  assert (Hexpr : forall e, vars_expr e ⊆ R ->
             runs (lookup_spec resolver entry T R) (vars_expr e) (fun _ => True)
                  (lowerExpr SimpleValue_attr resolver scope e))
    by (intros e; now apply runs_lowerExpr).
  assert (Htuple :
    runs (lookup_spec resolver entry T R) (vars_expr rhs) (fun _ => True)
      (let! v := lowerExpr SimpleValue_attr resolver scope rhs in
       let! vs := onMethod (asTuple v range) in
       mapM (fun part => onMethod (asValue part range)) vs)).
  { eapply runs_bind_r; [now apply Hexpr|]. intros v _.
    eapply runs_bind_l; [apply runs_onMethod|]. intros vs _.
    apply (runs_weaken _ (flat_map (fun _ => []) vs) []
                       (fun _ => True) (fun _ => True));
      [intros ref Href; inversion Href | trivial |].
    apply runs_mapM. apply Forall_forall. intros part _. apply runs_onMethod. }
  destruct rhs as [name r | value field r | callee inputs attributes r];
    [exact Htuple | exact Htuple |].
  simpl lowerStarred. simpl vars_expr in *.
  eapply runs_weaken; [reflexivity | | apply (runs_lowerApply _ vars_expr)].
  - trivial.
  - apply Hexpr. intros ref Href. apply HR, elem_of_app. now left.
  - apply Forall_forall. intros e He. apply Hexpr. intros ref Href.
    apply HR, elem_of_app. right. apply elem_of_flat_map. eauto.
Qed.

(** What the lowering of a statement guarantees, in a scope that keeps
    the invariant. *)
Lemma runs_lowerStmt s : forall scope,
  scope_inv entry T scope ->
  all_refs_stmt s ⊆ R ->
  (forall t, t ∈ targets_stmt s -> t ∈ T) ->
  runs (lookup_spec resolver entry T R) (straight_refs_stmt s)
       (scope_inv entry T)
       (lowerStmt w SimpleValue_attr resolver scope s).
Proof.
  induction s as [targets rhs range | targets rest rhs range
                 | target iter body range IHbody | values range]
              using Stmt_nested_ind; intros scope HI HR HT.
  - (* an assignment *)
    simpl in HR, HT. simpl straight_refs_stmt.
    assert (Hexpr :
               runs (lookup_spec resolver entry T R) (vars_expr rhs) (fun _ => True)
                    (lowerExpr SimpleValue_attr resolver scope rhs))
      by (now apply runs_lowerExpr).
    assert (Htuple :
      runs (lookup_spec resolver entry T R) (vars_expr rhs) (scope_inv entry T)
        (let! v := lowerExpr SimpleValue_attr resolver scope rhs in
         let! vs := onMethod (asTuple v range) in
         if (length vs =? length targets)%nat
         then ret (bindTargets scope targets vs)
         else fail (ArityMismatchError (N.of_nat (length targets))
                                       (N.of_nat (length vs)) range))).
    { eapply runs_bind_r; [apply Hexpr|]. intros v _.
      eapply runs_bind_l; [apply runs_onMethod|]. intros vs _.
      destruct (_ =? _)%nat; [|apply runs_fail].
      apply runs_ret. now apply scope_inv_bindTargets. }
    assert (Hsingle : forall t, t ∈ T ->
      runs (lookup_spec resolver entry T R) (vars_expr rhs) (scope_inv entry T)
        (let! v := lowerExpr SimpleValue_attr resolver scope rhs in
         ret (<[t := v]> scope))).
    { intros t Ht. eapply runs_bind_r; [apply Hexpr|]. intros v _.
      apply runs_ret. now apply scope_inv_insert. }
    destruct rhs as [name r | value field r | callee inputs attributes r].
    + destruct targets as [|t [|t' targets]];
        [exact Htuple | apply Hsingle, HT, list_elem_of_here | exact Htuple].
    + destruct targets as [|t [|t' targets]];
        [exact Htuple | apply Hsingle, HT, list_elem_of_here | exact Htuple].
    + rewrite lowerStmt_Assign_Apply. simpl vars_expr in *.
      eapply runs_bind_r.
      * apply (runs_lowerApply _ vars_expr).
        -- apply runs_lowerExpr; [exact HI|]. intros ref Href.
           apply HR, elem_of_app. now left.
        -- apply Forall_forall. intros e He.
           apply runs_lowerExpr; [exact HI|]. intros ref Href.
           apply HR, elem_of_app. right. apply elem_of_flat_map. eauto.
      * intros outs _. apply runs_ret. now apply scope_inv_bindTargets.
  - (* a starred assignment *)
    simpl in HR, HT. simpl straight_refs_stmt. rewrite lowerStmt_StarAssign.
    eapply runs_bind_r; [now apply runs_lowerStarred|]. intros outs _.
    destruct (_ <? _)%nat; [apply runs_fail|].
    eapply runs_bind_l; [apply runs_onMethod|]. intros packed _.
    apply runs_ret. apply scope_inv_insert; [|apply HT, list_elem_of_here].
    apply scope_inv_bindTargets; [exact HI|].
    intros t Ht. now apply HT, list_elem_of_further.
  - (* a loop *)
    simpl in HR, HT. simpl straight_refs_stmt. rewrite lowerStmt_For.
    eapply runs_bind_r.
    { apply runs_lowerExpr; [exact HI|]. intros ref Href.
      apply HR, elem_of_app. now left. }
    intros v _. eapply runs_bind_l; [apply runs_onMethod|]. intros vs _.
    apply (runs_unroll _ (straight_refs body)); [| |exact HI].
    + intros sc vi Hsc. apply scope_inv_insert; [exact Hsc|].
      apply HT, list_elem_of_here.
    + assert (HRb : flat_map all_refs_stmt body ⊆ R)
        by (intros ref Href; apply HR, elem_of_app; now right).
      assert (HTb : forall t, t ∈ flat_map targets_stmt body -> t ∈ T)
        by (intros t Ht; now apply HT, list_elem_of_further).
      clear HR HT HI. revert HRb HTb.
      induction IHbody as [|s body Hs _ IH]; intros HRb HTb sc Hsc.
      * simpl. now apply runs_ret.
      * simpl. unfold straight_refs. simpl flat_map.
        eapply runs_bind.
        -- apply Hs; [exact Hsc | |].
           ++ intros ref Href. apply HRb. simpl. apply elem_of_app. now left.
           ++ intros t Ht. apply HTb. simpl. apply elem_of_app. now left.
        -- intros sc' Hsc'. apply IH; [| |exact Hsc'].
           ++ intros ref Href. apply HRb. simpl. apply elem_of_app. now right.
           ++ intros t Ht. apply HTb. simpl. apply elem_of_app. now right.
  - (* a return *)
    simpl in HR. simpl straight_refs_stmt. rewrite lowerStmt_Return.
    eapply runs_bind_r.
    + apply runs_mapM. apply Forall_forall. intros e He.
      eapply runs_bind_r.
      * apply runs_lowerExpr; [exact HI|]. intros ref Href.
        apply HR, elem_of_flat_map. eauto.
      * intros v _. apply runs_onMethod.
    + intros vs _. eapply runs_bind_l; [apply runs_onMethod|].
      intros _ _. now apply runs_ret.
Qed.

Lemma runs_lowerStmts body : forall scope,
  scope_inv entry T scope ->
  all_refs body ⊆ R ->
  (forall t, t ∈ targets body -> t ∈ T) ->
  runs (lookup_spec resolver entry T R) (straight_refs body)
       (scope_inv entry T)
       (lowerStmts w SimpleValue_attr resolver scope body).
Proof.
  unfold lowerStmts, all_refs, targets, straight_refs.
  induction body as [|s body IH]; intros scope HI HR HT; simpl.
  - now apply runs_ret.
  - eapply runs_bind.
    + apply runs_lowerStmt; [exact HI | |].
      * intros ref Href. apply HR. simpl. apply elem_of_app. now left.
      * intros t Ht. apply HT. simpl. apply elem_of_app. now left.
    + intros scope' HI'. apply IH; [exact HI' | |].
      * intros ref Href. apply HR. simpl. apply elem_of_app. now right.
      * intros t Ht. apply HT. simpl. apply elem_of_app. now right.
Qed.

End Lookups.

(** ** The scope a definition starts in *)

Section Entry.

Variable w : N.

Variable SimpleValue_attr :
  Value -> SourceRange -> Method -> string -> Result SugaredValue * Method.

Variable resolver : Resolver.

(** Binding the formals never fails and leaves no event; it binds every
    formal and touches no name outside them. *)
Lemma bindInputs_ok params : forall (scope : gmap string SugaredValue) st,
  exists scope' st',
    bindInputs SimpleValue_attr scope params st = (Ok scope', st')
    /\ ls_events st' = ls_events st
    /\ dom scope' = dom scope ∪ list_to_set params
    /\ (forall name, name ∉ params -> scope' !! name = scope !! name).
Proof.
  induction params as [|p ps IH]; intros scope st; simpl.
  - exists scope, st. repeat split. set_solver.
  - unfold bind at 1. unfold onMethod at 1. simpl.
    match goal with |- context [bindInputs _ ?sc _ ?s] =>
      destruct (IH sc s) as (scope' & st' & E & Hlog & Hdom & Hframe) end.
    exists scope', st'. split; [exact E|]. split; [exact Hlog|]. split.
    + rewrite Hdom, dom_insert_L. set_solver.
    + intros name Hname. rewrite Hframe by set_solver.
      apply lookup_insert_ne. set_solver.
Qed.

Lemma bindFormals_ok self params st :
  exists (entry : gmap string SugaredValue) st',
    bindFormals SimpleValue_attr self params st = (Ok entry, st')
    /\ ls_events st' = ls_events st
    /\ dom entry = list_to_set params
    /\ (forall receiver p ps,
          self = Some receiver -> params = p :: ps ->
          entry !! p = Some receiver).
Proof.
  destruct self as [receiver|], params as [|p ps]; simpl.
  - exists ∅, st. split; [reflexivity|]. split; [reflexivity|].
    split; [set_solver | discriminate].
  - destruct (bindInputs_ok ps ∅ st) as (scope & st' & E & Hlog & Hdom & _).
    unfold bind. rewrite E. simpl.
    exists (<[p := receiver]> scope), st'.
    split; [reflexivity|]. split; [exact Hlog|]. split.
    + rewrite dom_insert_L, Hdom. set_solver.
    + intros r p' ps' [= <-] [= <- _]. apply lookup_insert_eq.
  - exists ∅, st. split; [reflexivity|]. split; [reflexivity|].
    split; [set_solver | discriminate].
  - destruct (bindInputs_ok (p :: ps) ∅ st) as (scope & st' & E & Hlog & Hdom & _).
    simpl in E. rewrite E. exists scope, st'.
    split; [reflexivity|]. split; [exact Hlog|]. split.
    + rewrite Hdom. set_solver.
    + discriminate.
Qed.

(** The events of the lowering of a definition: every lookup meets
    [lookup_spec] for the scope at entry; a lowering that returns went
    through no error and looked every straight reference up; a lowering
    that throws stopped at its first error, and throws that error. *)
Lemma compileDefinition_events self d :
  exists (entry : gmap string SugaredValue) st1,
    bindFormals SimpleValue_attr self (def_params d)
                (mkLowerState new_method []) = (Ok entry, st1)
    /\ ls_events st1 = []
    /\ dom entry = list_to_set (def_params d)
    /\ (forall receiver p ps,
          self = Some receiver -> def_params d = p :: ps ->
          entry !! p = Some receiver)
    /\ Forall (lookup_ok (lookup_spec resolver entry
                            (list_to_set (targets (def_body d)))
                            (all_refs (def_body d))))
              (ls_events (compileDefinition w SimpleValue_attr resolver self d).2)
    /\ match (compileDefinition w SimpleValue_attr resolver self d).1 with
       | Ok method =>
           Forall nonfailing
                  (ls_events (compileDefinition w SimpleValue_attr resolver self d).2)
           /\ method =
              ls_method (compileDefinition w SimpleValue_attr resolver self d).2
           /\ (forall ref, ref ∈ straight_refs (def_body d) ->
                 exists o,
                   Looked ref.1 ref.2 o ∈
                   ls_events (compileDefinition w SimpleValue_attr resolver self d).2)
       | Throw e =>
           exists evs0 ev,
             ls_events (compileDefinition w SimpleValue_attr resolver self d).2
               = evs0 ++ [ev]
             /\ Forall nonfailing evs0 /\ fails_with ev e
       end.
Proof.
  destruct (bindFormals_ok self (def_params d) (mkLowerState new_method []))
    as (entry & st1 & E & Hlog & Hdom & Hrecv).
  exists entry, st1. split; [exact E|]. split; [exact Hlog|].
  split; [exact Hdom|]. split; [exact Hrecv|].
  assert (Hrun :
    compileDefinition w SimpleValue_attr resolver self d
    = match lowerStmts w SimpleValue_attr resolver entry (def_body d) st1 with
      | (Ok _, st2) => (Ok (ls_method st2), st2)
      | (Throw e, st2) => (Throw e, st2)
      end).
  { unfold compileDefinition, bind. rewrite E. reflexivity. }
  rewrite Hrun. clear Hrun.
  assert (HI : scope_inv entry (list_to_set (targets (def_body d))) entry)
    by (split; [reflexivity | reflexivity]).
  assert (HR : all_refs (def_body d) ⊆ all_refs (def_body d)) by reflexivity.
  assert (HT : forall t, t ∈ targets (def_body d) ->
                         t ∈ (list_to_set (targets (def_body d)) : gset string))
    by (intros t Ht; now apply elem_of_list_to_set).
  pose proof (runs_lowerStmts w SimpleValue_attr resolver entry
              (list_to_set (targets (def_body d))) (all_refs (def_body d))
              (def_body d) entry HI HR HT) as Hruns.
  destruct (Hruns st1) as (evs & Hev & HL & Hr).
  destruct (lowerStmts w SimpleValue_attr resolver entry (def_body d) st1)
    as [[scope|e] st2]; simpl in *; rewrite Hlog in Hev; simpl in Hev;
    rewrite Hev.
  - split; [exact HL|]. destruct Hr as (Hnf & _ & Hcov). cbn.
    split; [exact Hnf|]. split; [reflexivity | exact Hcov].
  - split; [exact HL | exact Hr].
Qed.

Lemma define_app m pre rest self :
  defineMethodsInModule w SimpleValue_attr resolver m (pre ++ rest) self =
  match defineMethodsInModule w SimpleValue_attr resolver m pre self with
  | (Ok _, m') => defineMethodsInModule w SimpleValue_attr resolver m' rest self
  | (Throw e, m') => (Throw e, m')
  end.
Proof.
  revert m. induction pre as [|d pre IH]; intros m; simpl; [reflexivity|].
  destruct (compileDefinition w SimpleValue_attr resolver self d)
    as [[method|e] st]; [apply IH | reflexivity].
Qed.

(** A batch leaves alone the names that none of its definitions has,
    whether it ends well or not. *)
Lemma define_frame defs : forall m self name,
  name ∉ map def_name defs ->
  (defineMethodsInModule w SimpleValue_attr resolver m defs self).2 !! name
  = m !! name.
Proof.
  induction defs as [|d defs IH]; intros m self name Hname; simpl;
    [reflexivity|].
  destruct (compileDefinition w SimpleValue_attr resolver self d)
    as [[method|e] st]; [|reflexivity].
  rewrite IH by (intros H; apply Hname; simpl; now apply list_elem_of_further).
  unfold register. apply lookup_insert_ne. intros E. apply Hname.
  simpl. rewrite E. apply list_elem_of_here.
Qed.

End Entry.

(** ** The entry points *)

Section EntryPoints.

Variable w : N.

Variable SimpleValue_attr :
  Value -> SourceRange -> Method -> string -> Result SugaredValue * Method.

Variable resolver : Resolver.



End EntryPoints.




(** ** A resolver that knows no name *)

Section AbsentResolver.

Variable w : N.

Variable SimpleValue_attr :
  Value -> SourceRange -> Method -> string -> Result SugaredValue * Method.

Variable resolver : Resolver.

Hypothesis resolver_absent : forall name, resolver name = None.

Lemma nonfailing_from_scope entry T R ev :
  lookup_ok (lookup_spec resolver entry T R) ev ->
  nonfailing ev -> from_scope ev.
Proof.
  destruct ev as [name range [v|[v|]] | e]; simpl; try tauto.
  intros (_ & Hanswer & _) _.
  specialize (Hanswer (Some v) eq_refl).
  rewrite resolver_absent in Hanswer. discriminate.
Qed.


End AbsentResolver.



(** A free name in the body of a loop that is unrolled over no value is
    never looked up: the definition [def e(x): for i in x.items: y = z]
    compiles when [x.items] is empty. *)
Remark free_name_in_empty_loop_is_not_reached :
  ("z", at_ 3) ∈ all_refs (def_body sample_empty_loop)
  /\ exists g,
       compileFunction 64 sample_attr_empty absent_resolver sample_empty_loop
       = Ok g.
Proof.
  split.
  - vm_compute. repeat first [apply list_elem_of_here | apply list_elem_of_further].
  - eexists. vm_compute. reflexivity.
Qed.
(** * Further properties of the header *)

(** ** [SimpleValue] *)

(** X1.  A [SimpleValue] overrides [asValue] and [attr] and nothing else:
    [attr] is its own body applied to the wrapped value, while used as a
    tuple, called or iterated it throws the default report for kind
    "value" and leaves the method as it was. *)
Theorem SimpleValue_capabilities
    (SimpleValue_attr :
       Value -> SourceRange -> Method -> string -> Result SugaredValue * Method)
    (v : Value) (loc : SourceRange) (m : Method) (field : string)
    (inputs : list Value) (attributes : list Attribute)
    (cd : CallsiteDescriptor) :
  let s := SimpleValue SimpleValue_attr v in
  kind s = "value"
  /\ attr s loc m field = SimpleValue_attr v loc m field
  /\ asTuple s loc m =
       (Throw (ErrorReport loc "value cannot be used as tuple"), m)
  /\ call s loc m inputs attributes cd =
       (Throw (ErrorReport loc "cannot call a value"), m)
  /\ unrolledFor s loc m =
       (Throw (ErrorReport loc "value is not iterable"), m)
  /\ (forall c, overrides s c = true <-> c = CapAsValue \/ c = CapAttr).
Proof.
  simpl. repeat split; try reflexivity.
  - destruct c; simpl; intros H; auto; discriminate.
  - intros [-> | ->]; reflexivity.
Qed.

(** ** What a default failure tells, and what it does not *)

Lemma string_app_inv_l (p a b : string) : p +:+ a = p +:+ b -> a = b.
Proof.
  induction p as [|ch p IH]; intros H; [exact H|].
  change (String ch (p +:+ a) = String ch (p +:+ b)) in H.
  injection H as H. now apply IH.
Qed.

Lemma string_app_inv_r (s : string) : forall a b, a +:+ s = b +:+ s -> a = b.
Proof.
  induction a as [|x a IH]; intros [|y b] H.
  - reflexivity.
  - apply (f_equal String.length) in H.
    rewrite !string_length_app in H. simpl in H. lia.
  - apply (f_equal String.length) in H.
    rewrite !string_length_app in H. simpl in H. lia.
  - change (String x (a +:+ s) = String y (b +:+ s)) in H.
    injection H as -> H. f_equal. now apply IH.
Qed.

Lemma default_message_inj_kind c k k' :
  default_message c k = default_message c k' -> k = k'.
Proof.
  destruct c; simpl; intros H;
    first [ now apply string_app_inv_r in H | now apply string_app_inv_l in H ].
Qed.

(** X2.  Two failures of one operation, on variants that do not override
    it, are the same exactly when the variants have the same [kind()], the
    ranges are the same and the methods are the same.  So the report keeps
    the kind and the range, and nothing else of the call or of the object
    (the field, the inputs, the attributes, the descriptor, the name of a
    built-in, the wrapped value) reaches it. *)
Theorem default_failures_coincide_iff
    (a b : SugaredValue) (c : Capability) (i i' : Invocation)
    (m m' : Method) :
  overrides a c = false ->
  overrides b c = false ->
  invoke c a i m = invoke c b i' m'
  <-> kind a = kind b /\ inv_loc i = inv_loc i' /\ m = m'.
Proof.
  intros Ha Hb.
  rewrite (invoke_default a c i m Ha), (invoke_default b c i' m' Hb).
  split.
  - intros H. injection H as Hloc Hmsg Hm.
    split; [now apply (default_message_inj_kind c) | split; assumption].
  - intros (-> & -> & ->). reflexivity.
Qed.

Lemma default_failures_coincide_iff_witness :
  invoke CapAttr (BuiltinFunction sample_table "add" None)
         sample_invocation new_method
  = invoke CapAttr (BuiltinFunction sample_table "split" (Some 3%N))
           (mkInvocation (at_ 3) "bias" [] [] (mkCallsiteDescriptor 2 true))
           new_method.
Proof.
  apply (default_failures_coincide_iff
           (BuiltinFunction sample_table "add" None)
           (BuiltinFunction sample_table "split" (Some 3%N))
           CapAttr sample_invocation
           (mkInvocation (at_ 3) "bias" [] [] (mkCallsiteDescriptor 2 true))
           new_method new_method);
    [reflexivity | reflexivity | repeat split].
Defined.

Lemma string_app_same_position (k k' s s' : string) (j j' : nat) :
  k +:+ s = k' +:+ s' ->
  (j + String.length k = j' + String.length k')%nat ->
  String.get j s = String.get j' s'.
Proof.
  intros H E.
  rewrite (String.append_correct2 k s j), (String.append_correct2 k' s' j').
  now rewrite H, E.
Qed.

Lemma string_app_lengths (k k' s s' : string) :
  k +:+ s = k' +:+ s' ->
  (String.length k + String.length s = String.length k' + String.length s')%nat.
Proof.
  intros H. apply (f_equal String.length) in H.
  now rewrite !string_length_app in H.
Qed.

(** Two messages that end with different fixed phrases differ in their
    third letter from the end. *)
Ltac differ_at_end H :=
  let E := fresh "E" in
  pose proof (string_app_lengths _ _ _ _ H) as E; simpl in E;
  match type of H with
  | _ +:+ ?s = _ +:+ ?s' =>
      let n := eval compute in (String.length s - 3)%nat in
      let n' := eval compute in (String.length s' - 3)%nat in
      let G := fresh "G" in
      assert (G : String.get n s = String.get n' s')
        by (apply (string_app_same_position _ _ _ _ _ _ H); lia);
      vm_compute in G; discriminate G
  end.

(** A message that starts with a fixed phrase is no message that starts
    with a kind, unless that kind starts with the letter of the phrase. *)
Lemma phrase_first_vs_kind_first (p rest k s k' : string) ch :
  p +:+ k' = k +:+ s ->
  p = String ch rest ->
  String.prefix (String ch "") k = false ->
  String.get 0 s <> Some ch ->
  False.
Proof.
  intros H -> Hk Hs. destruct k as [|x k].
  - change (String ch (rest +:+ k') = s) in H. subst s. now apply Hs.
  - change (String ch (rest +:+ k') = String x (k +:+ s)) in H.
    injection H as <- _. simpl in Hk.
    destruct (Ascii.ascii_dec ch ch) as [_|N]; [|now apply N].
    destruct k; discriminate.
Qed.

Lemma starts_like_a_phrase_false k :
  starts_like_a_phrase k = false ->
  String.prefix "a" k = false /\ String.prefix "c" k = false.
Proof. unfold starts_like_a_phrase. apply orb_false_elim. Qed.

Lemma default_message_inj_joint c c' k k' :
  starts_like_a_phrase k = false ->
  starts_like_a_phrase k' = false ->
  default_message c k = default_message c' k' ->
  c = c' /\ k = k'.
Proof.
  intros [Ha Hc]%starts_like_a_phrase_false
         [Ha' Hc']%starts_like_a_phrase_false H.
  destruct c, c';
    try (match goal with
         | |- ?op = ?op /\ _ =>
             split; [reflexivity | exact (default_message_inj_kind op _ _ H)]
         end);
    simpl in H;
    try (exfalso; differ_at_end H);
    try (exfalso; discriminate H);
    exfalso.
  all: first
    [ eapply (phrase_first_vs_kind_first _ _ _ _ _ _ H);
      [reflexivity | assumption | vm_compute; discriminate]
    | eapply (phrase_first_vs_kind_first _ _ _ _ _ _ (eq_sym H));
      [reflexivity | assumption | vm_compute; discriminate] ].
Qed.

(** X3.  When neither kind starts with the letter of a fixed phrase (the
    "a" of "attribute lookup is not defined on", the "c" of "cannot call
    a"), two default failures coincide only when the operation, the kind,
    the range and the method are the same: the report alone tells which
    operation was refused and on what kind of thing.  The kinds of the
    header, "value" and "builtin", are such kinds. *)
Theorem default_failure_identifies_operation_and_kind
    (a b : SugaredValue) (c c' : Capability) (i i' : Invocation)
    (m m' : Method) :
  starts_like_a_phrase (kind a) = false ->
  starts_like_a_phrase (kind b) = false ->
  overrides a c = false ->
  overrides b c' = false ->
  invoke c a i m = invoke c' b i' m' ->
  c = c' /\ kind a = kind b /\ inv_loc i = inv_loc i' /\ m = m'.
Proof.
  intros Hka Hkb Ha Hb H.
  rewrite (invoke_default a c i m Ha), (invoke_default b c' i' m' Hb) in H.
  injection H as Hloc Hmsg Hm.
  destruct (default_message_inj_joint c c' _ _ Hka Hkb Hmsg) as [-> Hk].
  repeat split; assumption.
Qed.

Lemma default_failure_identifies_operation_and_kind_witness :
  CapCall = CapCall
  /\ kind (SimpleValue sample_attr 7%N) = kind (SimpleValue sample_attr 8%N)
  /\ inv_loc sample_invocation = inv_loc sample_invocation
  /\ new_method = new_method.
Proof.
  apply (default_failure_identifies_operation_and_kind
           (SimpleValue sample_attr 7%N) (SimpleValue sample_attr 8%N)
           CapCall CapCall sample_invocation sample_invocation
           new_method new_method); reflexivity.
Defined.

(** The condition on the kinds is needed: a kind that starts with one of
    the fixed phrases can make the reports of two operations the same. *)
Remark default_message_can_be_ambiguous :
  default_message CapAsValue "attribute lookup is not defined on a"
  = default_message CapAttr "a cannot be used as a value".
Proof. reflexivity. Qed.

(** ** The sentinel as a machine word *)

Lemma VARARG_OUTPUTS_ones (w : N) : VARARG_OUTPUTS w = N.ones w.
Proof.
  unfold VARARG_OUTPUTS, size_t_max. rewrite N.ones_equiv. apply N.sub_1_r.
Qed.

(** X4.  [VARARG_OUTPUTS] is the [w]-bit word with every bit set: it is
    what [-1] converts to, one more wraps around to [0], and every count a
    [size_t] can hold converts to itself. *)
Theorem VARARG_OUTPUTS_all_ones (w : N) :
  VARARG_OUTPUTS w = size_t_wrap w (-1)
  /\ size_t_wrap w (Z.of_N (VARARG_OUTPUTS w) + 1) = 0%N
  /\ (forall i, N.testbit (VARARG_OUTPUTS w) i = (i <? w)%N)
  /\ (forall n, is_size_t w n -> size_t_wrap w (Z.of_N n) = n).
Proof.
  assert (Hpos : (0 < 2 ^ w)%N)
    by (apply N.neq_0_lt_0, N.pow_nonzero; discriminate).
  assert (Hpow : (2 ^ Z.of_N w = Z.of_N (2 ^ w))%Z)
    by (now rewrite N2Z.inj_pow).
  unfold size_t_wrap, VARARG_OUTPUTS, size_t_max, is_size_t.
  rewrite Hpow. repeat split.
  - rewrite <- (Z.mod_unique (-1) (Z.of_N (2 ^ w)) (-1) (Z.of_N (2 ^ w) - 1));
      lia.
  - replace (Z.of_N (2 ^ w - 1) + 1)%Z with (Z.of_N (2 ^ w)) by lia.
    now rewrite Z.mod_same by lia.
  - intros i. fold (size_t_max w). fold (VARARG_OUTPUTS w).
    rewrite VARARG_OUTPUTS_ones.
    destruct (N.ltb_spec i w) as [Hlt|Hge].
    + now apply N.ones_spec_low.
    + now apply N.ones_spec_high.
  - intros n Hn. rewrite Z.mod_small by lia. apply N2Z.id.
Qed.
